(** * Custom React hooks: a random number and the countdown to the next one

    A shallow embedding of [hooks/random.ts] ([rand], [useRandom]),
    [hooks/timer.ts] ([useTimer], [tick]) and [App.tsx] ([App]).

    The hooks run on two hosts that are not part of the repository: the
    interval timers of the browser ([setInterval], [clearInterval]) and the
    hook runtime of React ([useState], [useEffect], [useCallback]).  Both are
    modelled by explicit state passing over one record, [world], driven by a
    simulated clock that counts milliseconds:

    - a state setter compares the new state with the current one and does
      nothing when they are equal; otherwise App is rendered again once the
      running callback or effect has returned;
    - an effect runs after the first render and after every render in which
      one of its dependencies differs from the last run; a re-run starts
      with the cleanup returned by the previous run; effects are flushed at
      the instant of the render that queued them;
    - [useCallback(f, [])] is the same function on every render;
    - intervals fire in the order of their due time and, at one instant, in
      the order of their creation; a cleared interval never fires;
    - numbers are exact: integers are [Z], and the result of
      [Math.random()] is a rational, [Math.random] being an oracle whose
      [k]-th call returns [random k]; [rand64] repeats [rand] with the
      rounding of binary64 arithmetic. *)

From Stdlib Require Import ZArith QArith Qround List Bool Lia Lqa.
Import ListNotations.
Local Open Scope Z_scope.

(** ** hooks/random.ts: the generation function

    [const rand = () => Math.floor(Math.random() * 9000 + 1000);]
    with the result [r] of [Math.random()] made an argument. *)
Definition rand (r : Q) : Z := Qfloor (r * 9000 + 1000)%Q.
Arguments rand : simpl never.

(** The same function on binary64 numbers.  A number of JavaScript is a
    double; a nonnegative double is a multiple of 2^-1074, and [X : Z]
    stands here for the double [X * 2^-1074].  [round53] rounds an exact
    result to the nearest double, ties to even: 53 significant bits. *)
Definition b64_one : Z := 2 ^ 1074.

Definition round53 (X : Z) : Z :=
  let s := Z.log2 X - 52 in
  if s <=? 0 then X
  else
    let q := X / 2 ^ s in
    let rem := X mod 2 ^ s in
    let half := 2 ^ (s - 1) in
    let q' := if rem <? half then q
              else if half <? rem then q + 1
              else if Z.even q then q else q + 1 in
    q' * 2 ^ s.

(** [Math.floor(R * 9000 + 1000)]: the product is rounded, then the sum. *)
Definition rand64 (R : Z) : Z :=
  round53 (round53 (R * 9000) + 1000 * b64_one) / b64_one.

(** ** The host: interval timers and the hook state of [App] *)

(** The two functions the hooks hand to [setInterval]. *)
Inductive callback : Set :=
| RandomCb   (* () => storeNumber(rand())   in useRandom *)
| TickCb.    (* tick                        in useTimer  *)

Record timer : Set := mkTimer {
  tid : Z;          (* handle returned by setInterval *)
  due : Z;          (* next firing time, ms *)
  period : Z;       (* delay given to setInterval, ms *)
  cb : callback
}.

(** Observable events, newest first in [trace]. *)
Inductive event : Set :=
| EvEmit (t v : Z)       (* the generator's callback stored value [v] at time [t] *)
| EvTick (t : Z)         (* the countdown's callback ran at time [t] *)
| EvRender (t n s : Z).  (* App rendered number [n] and countdown [s] *)

Inductive lifecycle : Set := Fresh | Mounted | Unmounted.

(** Effects queued by a render, run when the render is committed. *)
Inductive effect : Set :=
| RandomEffect                      (* useEffect(..., [])                     *)
| TimerEffect (randomNumber : Z).   (* useEffect(..., [randomNumber, tick])   *)

Record world : Set := mkWorld {
  now : Z;                         (* simulated clock, ms *)
  timers : list timer;             (* active intervals, in creation order *)
  next_id : Z;                     (* next interval handle *)
  draws : nat;                     (* calls of Math.random so far *)
  phase : lifecycle;
  pending : bool;                  (* React has a re-render scheduled *)
  queue : list effect;             (* effects of the render being committed *)
  number : Z;                      (* useRandom: the useState cell *)
  random_effect : option Z;        (* useRandom: interval held by the cleanup *)
  seconds : Z;                     (* useTimer: the useState cell *)
  timer_effect : option (Z * Z);   (* useTimer: randomNumber of the last run of
                                      the effect, interval held by its cleanup *)
  trace : list event
}.

(** A small state monad over [world]. *)
Definition M (A : Type) : Type := world -> A * world.
Definition ret {A} (a : A) : M A := fun w => (a, w).
Definition bind {A B} (m : M A) (k : A -> M B) : M B :=
  fun w => let (a, w') := m w in k a w'.
Definition exec {A} (m : M A) (w : world) : world := snd (m w).
Definition gets {A} (f : world -> A) : M A := fun w => (f w, w).
Definition modify (f : world -> world) : M unit := fun w => (tt, f w).

Declare Scope hook_scope.
Delimit Scope hook_scope with hook.
Notation "x <- m ;; k" := (bind m (fun x => k))
  (at level 61, m at next level, right associativity) : hook_scope.
Notation "m ;; k" := (bind m (fun _ => k))
  (at level 61, right associativity) : hook_scope.
Local Open Scope hook_scope.

Definition when (b : bool) (m : M unit) : M unit := if b then m else ret tt.

(** Field updates. *)
Definition set_now (t : Z) (w : world) : world :=
  mkWorld t (timers w) (next_id w) (draws w) (phase w) (pending w) (queue w)
    (number w) (random_effect w) (seconds w) (timer_effect w) (trace w).
Definition set_timers (l : list timer) (w : world) : world :=
  mkWorld (now w) l (next_id w) (draws w) (phase w) (pending w) (queue w)
    (number w) (random_effect w) (seconds w) (timer_effect w) (trace w).
Definition set_next_id (i : Z) (w : world) : world :=
  mkWorld (now w) (timers w) i (draws w) (phase w) (pending w) (queue w)
    (number w) (random_effect w) (seconds w) (timer_effect w) (trace w).
Definition set_draws (k : nat) (w : world) : world :=
  mkWorld (now w) (timers w) (next_id w) k (phase w) (pending w) (queue w)
    (number w) (random_effect w) (seconds w) (timer_effect w) (trace w).
Definition set_phase (p : lifecycle) (w : world) : world :=
  mkWorld (now w) (timers w) (next_id w) (draws w) p (pending w) (queue w)
    (number w) (random_effect w) (seconds w) (timer_effect w) (trace w).
Definition set_pending (b : bool) (w : world) : world :=
  mkWorld (now w) (timers w) (next_id w) (draws w) (phase w) b (queue w)
    (number w) (random_effect w) (seconds w) (timer_effect w) (trace w).
Definition set_queue (q : list effect) (w : world) : world :=
  mkWorld (now w) (timers w) (next_id w) (draws w) (phase w) (pending w) q
    (number w) (random_effect w) (seconds w) (timer_effect w) (trace w).
Definition set_number (n : Z) (w : world) : world :=
  mkWorld (now w) (timers w) (next_id w) (draws w) (phase w) (pending w) (queue w)
    n (random_effect w) (seconds w) (timer_effect w) (trace w).
Definition set_random_effect (e : option Z) (w : world) : world :=
  mkWorld (now w) (timers w) (next_id w) (draws w) (phase w) (pending w) (queue w)
    (number w) e (seconds w) (timer_effect w) (trace w).
Definition set_seconds (s : Z) (w : world) : world :=
  mkWorld (now w) (timers w) (next_id w) (draws w) (phase w) (pending w) (queue w)
    (number w) (random_effect w) s (timer_effect w) (trace w).
Definition set_timer_effect (e : option (Z * Z)) (w : world) : world :=
  mkWorld (now w) (timers w) (next_id w) (draws w) (phase w) (pending w) (queue w)
    (number w) (random_effect w) (seconds w) e (trace w).
Definition set_trace (l : list event) (w : world) : world :=
  mkWorld (now w) (timers w) (next_id w) (draws w) (phase w) (pending w) (queue w)
    (number w) (random_effect w) (seconds w) (timer_effect w) l.

Definition log (e : event) : M unit := modify (fun w => set_trace (e :: trace w) w).

(** *** Interval timers *)

(** [setInterval(cb, ms)]: a new schedule, first due [ms] from now, with a
    fresh handle. *)
Definition setInterval (c : callback) (ms : Z) : M Z := fun w =>
  let id := next_id w in
  (id, set_next_id (id + 1)
         (set_timers (timers w ++ [mkTimer id (now w + ms) ms c]) w)).

(** [clearInterval(id)]: the schedule with that handle is dropped. *)
Definition clearInterval (id : Z) : M unit :=
  modify (fun w => set_timers (filter (fun t => negb (tid t =? id)) (timers w)) w).

(** *** React state setters

    A setter compares the new state with the current one ([Object.is]); on
    equal values React bails out: nothing is scheduled. *)
Inductive SetStateAction : Type :=
| Value (v : Z)
| Updater (f : Z -> Z).

Definition next_state (a : SetStateAction) (s : Z) : Z :=
  match a with Value v => v | Updater f => f s end.

Definition storeNumber (a : SetStateAction) : M unit := fun w =>
  let n := next_state a (number w) in
  if n =? number w then (tt, w) else (tt, set_pending true (set_number n w)).

Definition storeSeconds (a : SetStateAction) : M unit := fun w =>
  let s := next_state a (seconds w) in
  if s =? seconds w then (tt, w) else (tt, set_pending true (set_seconds s w)).

Definition is_fresh (w : world) : bool :=
  match phase w with Fresh => true | _ => false end.

Definition enqueue (e : effect) : M unit :=
  modify (fun w => set_queue (queue w ++ [e]) w).

Section Hooks.

(** The oracle behind [Math.random()]. *)
Variable random : nat -> Q.

Definition Math_random : M Q := fun w =>
  (random (draws w), set_draws (S (draws w)) w).

(** [rand()] as the hooks call it. *)
Definition rand_call : M Z := r <- Math_random ;; ret (rand r).

(** ** hooks/random.ts *)

(** The interval callback [() => storeNumber(rand())]. *)
Definition random_interval : M unit :=
  v <- rand_call ;;
  t <- gets now ;;
  log (EvEmit t v) ;;
  storeNumber (Value v).

(** The effect body; its result is the interval the cleanup clears. *)
Definition useRandom_effect : M Z := setInterval RandomCb 10000.

Definition useRandom : M Z :=
  (* const [number, storeNumber] = useState(rand());
     the argument is evaluated on every render, used on the first only *)
  init <- rand_call ;;
  first <- gets is_fresh ;;
  when first (modify (set_number init)) ;;
  (* useEffect(..., []): queued on the first render only *)
  when first (enqueue RandomEffect) ;;
  gets number.

(** ** hooks/timer.ts *)

(** [tick]: [storeSeconds((s) => s - 1)]. *)
Definition tick : M unit :=
  t <- gets now ;;
  log (EvTick t) ;;
  storeSeconds (Updater (fun s => s - 1)).

(** The effect body: reset, then start an interval; the result is the
    interval the cleanup clears. *)
Definition useTimer_effect : M Z :=
  storeSeconds (Value 10) ;;
  setInterval TickCb 1000.

Definition deps_changed (randomNumber : Z) (w : world) : bool :=
  match timer_effect w with
  | Some (d, _) => negb (d =? randomNumber)
  | None => true
  end.

Definition useTimer (randomNumber : Z) : M Z :=
  (* const [seconds, storeSeconds] = useState(10); *)
  first <- gets is_fresh ;;
  when first (modify (set_seconds 10)) ;;
  (* tick = useCallback(..., []): the same function on every render, so of
     the dependencies [randomNumber, tick] only randomNumber can change *)
  changed <- gets (deps_changed randomNumber) ;;
  when changed (enqueue (TimerEffect randomNumber)) ;;
  gets seconds.

(** ** App.tsx *)
Definition App : M (Z * Z) :=
  randomNumber <- useRandom ;;
  timer <- useTimer randomNumber ;;
  t <- gets now ;;
  log (EvRender t randomNumber timer) ;;   (* console.info("app render") *)
  ret (randomNumber, timer).

(** ** React: committing a render *)

Definition cleanup (h : option Z) : M unit :=
  match h with Some i => clearInterval i | None => ret tt end.

(** Running a queued effect: the cleanup of its previous run first, then the
    body; React keeps the new cleanup and dependencies. *)
Definition run_effect (e : effect) : M unit :=
  match e with
  | RandomEffect =>
      old <- gets random_effect ;;
      cleanup old ;;
      i <- useRandom_effect ;;
      modify (set_random_effect (Some i))
  | TimerEffect randomNumber =>
      old <- gets timer_effect ;;
      cleanup (option_map snd old) ;;
      i <- useTimer_effect ;;
      modify (set_timer_effect (Some (randomNumber, i)))
  end.

Fixpoint run_effects (l : list effect) : M unit :=
  match l with
  | [] => ret tt
  | e :: l' => run_effect e ;; run_effects l'
  end.

Definition commit : M unit :=
  App ;;
  modify (set_phase Mounted) ;;
  q <- gets queue ;;
  modify (set_queue []) ;;
  run_effects q.

(** React re-renders while an update is scheduled, up to its limit on nested
    updates. *)
Definition NESTED_UPDATE_LIMIT : nat := 50.

Fixpoint flush (fuel : nat) (w : world) : world :=
  match fuel with
  | O => w
  | S k => if pending w then flush k (exec commit (set_pending false w)) else w
  end.

Definition initial : world :=
  mkWorld 0 [] 1 0 Fresh false [] 0 None 0 None [].

(** Mounting [<App />] at time 0. *)
Definition mount : world := flush NESTED_UPDATE_LIMIT (exec commit initial).

(** Unmounting runs the cleanup of every effect, in hook order. *)
Definition unmount (w : world) : world :=
  match phase w with
  | Mounted =>
      exec (cleanup (random_effect w) ;;
            modify (set_random_effect None) ;;
            cleanup (option_map snd (timer_effect w)) ;;
            modify (set_timer_effect None) ;;
            modify (set_phase Unmounted)) w
  | _ => w
  end.

(** ** The simulated clock *)

Definition run_callback (c : callback) : M unit :=
  match c with RandomCb => random_interval | TickCb => tick end.

Definition reschedule (id : Z) : M unit :=
  modify (fun w => set_timers
    (map (fun t => if tid t =? id
                   then mkTimer (tid t) (due t + period t) (period t) (cb t)
                   else t) (timers w)) w).

(** Fire the interval [id] if it is still scheduled and due; React then
    processes the update the callback scheduled. *)
Definition fire (id : Z) (w : world) : world :=
  match find (fun t => tid t =? id) (timers w) with
  | Some t =>
      if due t <=? now w
      then flush NESTED_UPDATE_LIMIT
             (exec (reschedule id ;; run_callback (cb t)) w)
      else w
  | None => w
  end.

(** All intervals due at the current instant, in creation order.  An interval
    cleared by an earlier callback of the same instant no longer fires; one
    created at this instant is not due yet. *)
Definition run_due (w : world) : world :=
  fold_left (fun w' id => fire id w') (map tid (timers w)) w.

Definition advance_ms (w : world) : world := run_due (set_now (now w + 1) w).

Definition advance (ms : N) (w : world) : world := N.iter ms advance_ms w.

End Hooks.

(** Projections used in statements. *)
Fixpoint emissions_of (l : list event) : list (Z * Z) :=
  match l with
  | [] => []
  | EvEmit t v :: l' => emissions_of l' ++ [(t, v)]
  | _ :: l' => emissions_of l'
  end.
Definition emissions (w : world) : list (Z * Z) := emissions_of (trace w).

Fixpoint ticks_of (l : list event) : list Z :=
  match l with
  | [] => []
  | EvTick t :: l' => ticks_of l' ++ [t]
  | _ :: l' => ticks_of l'
  end.
Definition ticks (w : world) : list Z := ticks_of (trace w).

(** What App rendered: time, number and countdown of each render, oldest
    first; and the pair on the display, that of the latest render. *)
Fixpoint renders_of (l : list event) : list (Z * Z * Z) :=
  match l with
  | [] => []
  | EvRender t n s :: l' => renders_of l' ++ [(t, n, s)]
  | _ :: l' => renders_of l'
  end.
Definition renders (w : world) : list (Z * Z * Z) := renders_of (trace w).

Fixpoint last_render (l : list event) : option (Z * Z) :=
  match l with
  | [] => None
  | EvRender _ n s :: _ => Some (n, s)
  | _ :: l' => last_render l'
  end.
Definition displayed (w : world) : option (Z * Z) := last_render (trace w).

(** No two neighbours of the list are equal. *)
Fixpoint adjacent_distinct (l : list Z) : bool :=
  match l with
  | a :: (b :: _) as l' => negb (a =? b) && adjacent_distinct l'
  | _ => true
  end.

(** The schedules of a given callback. *)
Definition callback_eqb (a b : callback) : bool :=
  match a, b with
  | RandomCb, RandomCb | TickCb, TickCb => true
  | _, _ => false
  end.

Definition schedules (c : callback) (w : world) : list timer :=
  filter (fun t => callback_eqb (cb t) c) (timers w).

(** ** The steady state of a mounted [App]

    One generator interval due at [dr], one countdown interval due at [dt],
    each held by the cleanup of its effect; nothing scheduled in React. *)
Definition steady (dr dt : Z) (w : world) : Prop :=
  phase w = Mounted /\ pending w = false /\ queue w = [] /\
  exists r t,
    timers w = [mkTimer r dr 10000 RandomCb; mkTimer t dt 1000 TickCb] /\
    r <> t /\ r < next_id w /\ t < next_id w /\
    random_effect w = Some r /\
    timer_effect w = Some (number w, t).

(** Next firing time of the countdown's schedule. *)
Definition tick_due (w : world) : Z :=
  match schedules TickCb w with t :: _ => due t | [] => 0 end.

(** Next firing time of the generator's schedule. *)
Definition random_due (w : world) : Z :=
  match schedules RandomCb w with t :: _ => due t | [] => 0 end.

(** A mounted App between two instants: both schedules lie ahead, each
    within one period. *)
Definition alive (w : world) : Prop :=
  exists dr dt,
    steady dr dt w /\
    now w < dr <= now w + 10000 /\
    now w < dt <= now w + 1000.

Definition torn_down (w : world) : Prop :=
  phase w = Unmounted /\ timers w = [].

(** The states an execution passes through: mount, then any interleaving of
    elapsed milliseconds and an unmount. *)
Inductive reachable (random : nat -> Q) : world -> Prop :=
| reach_mount : reachable random (mount random)
| reach_ms w : reachable random w -> reachable random (advance_ms random w)
| reach_unmount w : reachable random w -> reachable random (unmount w).

(** [number_stable random w n]: over the next [n] milliseconds the value
    held by useRandom, the dependency of useTimer's effect, never differs
    from the one held in [w]. *)
Definition number_stable (random : nat -> Q) (w : world) (n : N) : bool :=
  fst (N.iter n
         (fun p : bool * world =>
            let w' := advance_ms random (snd p) in
            (fst p && (number w' =? number w), w'))
         (true, w)).

(** Oracles used in the examples: one that always returns 0.5, and one
    whose eleventh result alone is 0.75. *)
Definition always_half : nat -> Q := fun _ => (1 # 2)%Q.
Definition half_then_new : nat -> Q :=
  fun k => if Nat.eqb k 10 then (3 # 4)%Q else (1 # 2)%Q.

(** Symbolic evaluation of the model: unfold the model's own definitions,
    settle comparisons from the context, let React flush. *)
Ltac hook_eval :=
  cbv beta iota zeta delta [exec bind ret gets modify when log
       set_now set_timers set_next_id set_draws set_phase set_pending set_queue
       set_number set_random_effect set_seconds set_timer_effect set_trace
       setInterval clearInterval storeNumber storeSeconds next_state is_fresh
       enqueue Math_random rand_call random_interval useRandom_effect useRandom
       tick useTimer_effect deps_changed useTimer App cleanup run_effect
       run_effects commit run_callback reschedule fire run_due advance_ms
       unmount
       fold_left map filter find app fst snd negb option_map
       now timers next_id draws phase pending queue number random_effect
       seconds timer_effect trace tid due period cb].

Section Execution.
Variable random : nat -> Q.

Lemma flush_idle n w : pending w = false -> flush random n w = w.
Proof. destruct n; simpl; intros H; [|rewrite H]; reflexivity. Qed.

Lemma flush_step n w :
  pending w = true ->
  flush random (S n) w = flush random n (exec (commit random) (set_pending false w)).
Proof. simpl; intros ->; reflexivity. Qed.

Ltac flush_eval :=
  unfold NESTED_UPDATE_LIMIT;
  first [ rewrite flush_idle by reflexivity
        | rewrite flush_step by reflexivity ].

Ltac run :=
  repeat first
    [ progress hook_eval
    | flush_eval
    | rewrite Z.eqb_refl
    | match goal with
      | H : (_ =? _) = _ |- _ => rewrite H
      | H : (_ <=? _) = _ |- _ => rewrite H
      end ].

(** *** One firing, on a steady world *)

Lemma fire_absent id w :
  find (fun t => tid t =? id) (timers w) = None -> fire random id w = w.
Proof. unfold fire; intros ->; reflexivity. Qed.

Lemma fire_not_due id w t :
  find (fun t => tid t =? id) (timers w) = Some t -> now w < due t ->
  fire random id w = w.
Proof.
  unfold fire; intros -> H.
  replace (due t <=? now w) with false by (symmetry; apply Z.leb_gt; lia).
  reflexivity.
Qed.

(** The generator's interval fires and draws the value already held: React
    bails out, nothing is rendered and no effect runs. *)
Lemma fire_random_same nw r dr t dt nid k num secs tr :
  r <> t -> dr <= nw -> rand (random k) = num ->
  fire random r
    (mkWorld nw [mkTimer r dr 10000 RandomCb; mkTimer t dt 1000 TickCb] nid k
       Mounted false [] num (Some r) secs (Some (num, t)) tr) =
  mkWorld nw [mkTimer r (dr + 10000) 10000 RandomCb; mkTimer t dt 1000 TickCb]
    nid (S k) Mounted false [] num (Some r) secs (Some (num, t))
    (EvEmit nw num :: tr).
Proof.
  intros Hrt Hd Hv.
  assert (E2 : (t =? r) = false) by (apply Z.eqb_neq; lia).
  assert (E5 : (dr <=? nw) = true) by (apply Z.leb_le; lia).
  run. rewrite Hv. run. reflexivity.
Qed.

(** The generator's interval fires and draws another value: App re-renders,
    the effect of useTimer runs again (cleanup, reset, new interval), and the
    reset re-renders once more unless the countdown already showed 10. *)
Lemma fire_random_new nw r dr t dt nid k num secs tr :
  r <> t -> dr <= nw -> rand (random k) <> num ->
  let v := rand (random k) in
  fire random r
    (mkWorld nw [mkTimer r dr 10000 RandomCb; mkTimer t dt 1000 TickCb] nid k
       Mounted false [] num (Some r) secs (Some (num, t)) tr) =
  mkWorld nw [mkTimer r (dr + 10000) 10000 RandomCb;
              mkTimer nid (nw + 1000) 1000 TickCb]
    (nid + 1) (if 10 =? secs then S (S k) else S (S (S k)))
    Mounted false [] v (Some r) 10 (Some (v, nid))
    ((if 10 =? secs then [] else [EvRender nw v 10]) ++
     EvRender nw v secs :: EvEmit nw v :: tr).
Proof.
  intros Hrt Hd Hv v.
  assert (E1 : (r =? t) = false) by (apply Z.eqb_neq; lia).
  assert (E2 : (t =? r) = false) by (apply Z.eqb_neq; lia).
  assert (E5 : (dr <=? nw) = true) by (apply Z.leb_le; lia).
  assert (E6 : (rand (random k) =? num) = false) by (apply Z.eqb_neq; lia).
  assert (E7 : (num =? rand (random k)) = false) by (apply Z.eqb_neq; lia).
  destruct (Z.eqb_spec 10 secs) as [<-|Hs].
  - run. reflexivity.
  - assert (E8 : (10 =? secs) = false) by (apply Z.eqb_neq; lia).
    run. reflexivity.
Qed.

(** The countdown's interval fires. *)
Lemma fire_tick nw r dr t dt nid k num secs tr :
  r <> t -> dt <= nw ->
  fire random t
    (mkWorld nw [mkTimer r dr 10000 RandomCb; mkTimer t dt 1000 TickCb] nid k
       Mounted false [] num (Some r) secs (Some (num, t)) tr) =
  mkWorld nw [mkTimer r dr 10000 RandomCb; mkTimer t (dt + 1000) 1000 TickCb]
    nid (S k) Mounted false [] num (Some r) (secs - 1) (Some (num, t))
    (EvRender nw num (secs - 1) :: EvTick nw :: tr).
Proof.
  intros Hrt Hd.
  assert (E1 : (r =? t) = false) by (apply Z.eqb_neq; lia).
  assert (E4 : (secs - 1 =? secs) = false) by (apply Z.eqb_neq; lia).
  assert (E5 : (dt <=? nw) = true) by (apply Z.leb_le; lia).
  run. reflexivity.
Qed.

(** *** One millisecond, on a steady world *)
Lemma advance_ms_two nw r dr t dt nid k ph pd q num re secs te tr :
  advance_ms random
    (mkWorld nw [mkTimer r dr 10000 RandomCb; mkTimer t dt 1000 TickCb] nid k
       ph pd q num re secs te tr) =
  fire random t
    (fire random r
       (mkWorld (nw + 1) [mkTimer r dr 10000 RandomCb; mkTimer t dt 1000 TickCb]
          nid k ph pd q num re secs te tr)).
Proof. reflexivity. Qed.

Lemma steady_intro r t dr dt nw nid k num secs tr :
  r <> t -> r < nid -> t < nid ->
  steady dr dt
    (mkWorld nw [mkTimer r dr 10000 RandomCb; mkTimer t dt 1000 TickCb] nid k
       Mounted false [] num (Some r) secs (Some (num, t)) tr).
Proof.
  intros; unfold steady; cbn.
  repeat split; exists r, t; repeat split; assumption.
Qed.

Lemma advance_ms_steady dr dt w :
  steady dr dt w -> now w < dr -> now w < dt ->
  let n1 := now w + 1 in
  let v := rand (random (draws w)) in
  let fired := dr =? n1 in
  let reset := fired && negb (v =? number w) in
  let ticked := negb reset && (dt =? n1) in
  let w' := advance_ms random w in
  steady (if fired then dr + 10000 else dr)
         (if reset then n1 + 1000 else if ticked then dt + 1000 else dt) w' /\
  now w' = n1 /\
  number w' = (if fired then v else number w) /\
  seconds w' = (if reset then 10 else if ticked then seconds w - 1 else seconds w) /\
  emissions w' = emissions w ++ (if fired then [(n1, v)] else []) /\
  ticks w' = ticks w ++ (if ticked then [n1] else []) /\
  draws w' = ((if fired
               then if reset then if (10 =? seconds w)%Z then 2 else 3 else 1
               else 0) +
              (if ticked then 1 else 0) + draws w)%nat /\
  map tid (schedules TickCb w') =
    (if reset then [next_id w] else map tid (schedules TickCb w)).
Proof.
  destruct w as [nw tm nid k ph pd q num re secs te tr].
  intros (Hph & Hpd & Hq & r & t & Htm & Hrt & Hr & Ht & Hre & Hte) Hdr Hdt.
  cbn in Hph, Hpd, Hq, Htm, Hr, Ht, Hre, Hte, Hdr, Hdt. subst.
  cbv zeta. rewrite advance_ms_two.
  cbn [now draws number seconds].
  unfold emissions, ticks.
  destruct (Z.eqb_spec dr (nw + 1)) as [Hd|Hd].
  - destruct (Z.eqb_spec (rand (random k)) num) as [Hv|Hv].
    + rewrite fire_random_same by (auto; lia).
      destruct (Z.eqb_spec dt (nw + 1)) as [Hd'|Hd'].
      * rewrite fire_tick by (auto; lia).
        cbn; rewrite ?app_nil_r.
        repeat split; try (apply steady_intro; lia); congruence.
      * rewrite fire_not_due with (id := t) (t := mkTimer t dt 1000 TickCb).
        -- cbn; rewrite ?app_nil_r.
           repeat split; try (apply steady_intro; lia); congruence.
        -- cbn. rewrite (proj2 (Z.eqb_neq r t)), Z.eqb_refl; auto.
        -- cbn; lia.
    + rewrite fire_random_new by (auto; lia).
      rewrite fire_absent.
      * destruct (10 =? secs); cbn; rewrite ?app_nil_r;
          repeat split; try (apply steady_intro; lia).
      * cbn. rewrite (proj2 (Z.eqb_neq r t)), (proj2 (Z.eqb_neq nid t)); auto; lia.
  - rewrite fire_not_due with (id := r) (t := mkTimer r dr 10000 RandomCb).
    + destruct (Z.eqb_spec dt (nw + 1)) as [Hd'|Hd'].
      * rewrite fire_tick by (auto; lia).
        cbn; rewrite ?app_nil_r.
        repeat split; try (apply steady_intro; lia); congruence.
      * rewrite fire_not_due with (id := t) (t := mkTimer t dt 1000 TickCb).
        -- cbn; rewrite ?app_nil_r.
           repeat split; try (apply steady_intro; lia); congruence.
        -- cbn. rewrite (proj2 (Z.eqb_neq r t)), Z.eqb_refl; auto.
        -- cbn; lia.
    + cbn. rewrite Z.eqb_refl; auto.
    + cbn; lia.
Qed.

Lemma mount_steady : steady 10000 1000 (mount random).
Proof. unfold mount, initial. run. apply steady_intro; lia. Qed.

Lemma mount_view :
  now (mount random) = 0 /\ number (mount random) = rand (random 0%nat) /\
  seconds (mount random) = 10 /\ emissions (mount random) = [] /\
  ticks (mount random) = [] /\ draws (mount random) = 1%nat.
Proof. unfold mount, initial. run. repeat split. Qed.

(** *** Invariants of the mounted and of the unmounted App *)

Lemma steady_tick_due dr dt w : steady dr dt w -> tick_due w = dt.
Proof.
  intros (_ & _ & _ & r & t & Htm & _).
  unfold tick_due, schedules. rewrite Htm. reflexivity.
Qed.

Lemma steady_random_due dr dt w : steady dr dt w -> random_due w = dr.
Proof.
  intros (_ & _ & _ & r & t & Htm & _).
  unfold random_due, schedules. rewrite Htm. reflexivity.
Qed.

Lemma alive_mount : alive (mount random).
Proof.
  exists 10000, 1000. split; [apply mount_steady|].
  destruct mount_view as (-> & _). lia.
Qed.

Lemma alive_step w : alive w -> alive (advance_ms random w).
Proof.
  intros (dr & dt & Hs & Hdr & Hdt).
  destruct (advance_ms_steady dr dt w Hs) as (Hs' & Hn & _); try lia.
  cbv zeta in Hs'. eexists _, _. split; [exact Hs'|]. rewrite Hn.
  destruct (Z.eqb_spec dr (now w + 1)); cbn [andb negb];
    destruct (negb (rand (random (draws w)) =? number w)); cbn [andb negb];
    destruct (Z.eqb_spec dt (now w + 1)); lia.
Qed.

Lemma unmount_alive w :
  alive w ->
  torn_down (unmount w) /\ now (unmount w) = now w /\
  number (unmount w) = number w /\ seconds (unmount w) = seconds w /\
  trace (unmount w) = trace w.
Proof.
  intros (dr & dt & (Hph & Hpd & Hq & r & t & Htm & Hrt & Hr & Ht & Hre & Hte) & _).
  destruct w as [nw tm nid k ph pd q num re secs te tr].
  cbn in Hph, Hpd, Hq, Htm, Hre, Hte. subst.
  assert (E1 : (r =? t) = false) by (apply Z.eqb_neq; lia).
  assert (E2 : (t =? r) = false) by (apply Z.eqb_neq; lia).
  unfold torn_down. run. repeat split.
Qed.

Lemma unmount_torn_down w : torn_down w -> unmount w = w.
Proof. intros (H & _). unfold unmount. rewrite H. reflexivity. Qed.

Lemma advance_ms_torn_down w :
  torn_down w -> advance_ms random w = set_now (now w + 1) w.
Proof.
  intros (_ & H). unfold advance_ms, run_due.
  cbn [set_now timers]. rewrite H. reflexivity.
Qed.

Lemma torn_down_step w : torn_down w -> torn_down (advance_ms random w).
Proof.
  intros H. rewrite advance_ms_torn_down by assumption.
  destruct H; split; assumption.
Qed.

Lemma reachable_inv w : reachable random w -> alive w \/ torn_down w.
Proof.
  induction 1 as [|w _ [IH|IH]|w _ [IH|IH]].
  - left; apply alive_mount.
  - left; apply alive_step; assumption.
  - right; apply torn_down_step; assumption.
  - right; apply unmount_alive; assumption.
  - right; rewrite unmount_torn_down; assumption.
Qed.

(** *** Iterating the clock *)

Lemma advance_0 w : advance random 0 w = w.
Proof. reflexivity. Qed.

Lemma advance_succ n w :
  advance random (N.succ n) w = advance_ms random (advance random n w).
Proof. unfold advance. apply N.iter_succ. Qed.

Lemma reachable_advance n w :
  reachable random w -> reachable random (advance random n w).
Proof.
  intros H. induction n as [|n IH] using N.peano_ind.
  - exact H.
  - rewrite advance_succ. apply reach_ms, IH.
Qed.

Lemma alive_advance n w : alive w -> alive (advance random n w).
Proof.
  intros H. induction n as [|n IH] using N.peano_ind.
  - exact H.
  - rewrite advance_succ. apply alive_step, IH.
Qed.

Lemma now_advance n w :
  alive w \/ torn_down w -> now (advance random n w) = now w + Z.of_N n.
Proof.
  intros H. induction n as [|n IH] using N.peano_ind.
  - rewrite advance_0. lia.
  - rewrite advance_succ, N2Z.inj_succ.
    destruct H as [H|H].
    + pose proof (alive_advance n w H) as (dr & dt & Hs & Hdr & Hdt).
      destruct (advance_ms_steady dr dt _ Hs) as (_ & Hn & _); lia.
    + assert (Ht : torn_down (advance random n w)).
      { clear IH. induction n as [|n IHn] using N.peano_ind; [exact H|].
        rewrite advance_succ. apply torn_down_step, IHn. }
      rewrite advance_ms_torn_down by exact Ht. cbn. lia.
Qed.

(** *** Stretches without a dependency change *)

Lemma number_stable_state n w :
  snd (N.iter n
         (fun p : bool * world =>
            let w' := advance_ms random (snd p) in
            (fst p && (number w' =? number w), w'))
         (true, w)) = advance random n w.
Proof.
  induction n as [|n IH] using N.peano_ind; [reflexivity|].
  rewrite N.iter_succ, advance_succ, <- IH. reflexivity.
Qed.

Lemma number_stable_succ n w :
  number_stable random w (N.succ n) =
  number_stable random w n &&
  (number (advance random (N.succ n) w) =? number w).
Proof.
  unfold number_stable.
  rewrite N.iter_succ, advance_succ, <- number_stable_state. reflexivity.
Qed.

Lemma number_stable_spec n w :
  number_stable random w n = true <->
  (forall j, (j <= n)%N -> number (advance random j w) = number w).
Proof.
  induction n as [|n IH] using N.peano_ind.
  - split; [|reflexivity]. intros _ j Hj.
    replace j with 0%N by lia. reflexivity.
  - rewrite number_stable_succ, andb_true_iff, IH, Z.eqb_eq. split.
    + intros [H1 H2] j Hj.
      destruct (N.eq_dec j (N.succ n)) as [->|Hne]; [exact H2|].
      apply H1; lia.
    + intros H; split; [intros j Hj|]; apply H; lia.
Qed.

(** While the held value does not change, the countdown and the due time of
    its schedule move together: each tick takes one from [seconds] and puts
    the schedule 1000 ms further. *)
Lemma stable_stretch n w :
  alive w ->
  (forall j, (j <= n)%N -> number (advance random j w) = number w) ->
  let w' := advance random n w in
  1000 * seconds w' + tick_due w' = 1000 * seconds w + tick_due w /\
  1000 * Z.of_nat (length (ticks w')) - tick_due w' =
  1000 * Z.of_nat (length (ticks w)) - tick_due w.
Proof.
  intros Ha. induction n as [|n IH] using N.peano_ind; intros Hst.
  - cbv zeta. rewrite advance_0. split; reflexivity.
  - cbv zeta in *. destruct IH as (IH1 & IH2); [intros; apply Hst; lia|].
    assert (Hn : number (advance random n w) = number w) by (apply Hst; lia).
    assert (Hn' : number (advance random (N.succ n) w) = number w)
      by (apply Hst; lia).
    rewrite advance_succ in *.
    destruct (alive_advance n w Ha) as (dr & dt & Hs & Hdr & Hdt).
    destruct (advance_ms_steady dr dt _ Hs) as (Hs' & _ & Hnum & Hsec & _ & Htk & _);
      try lia.
    cbv zeta in *.
    rewrite (steady_tick_due _ _ _ Hs'), Hsec, Htk, length_app.
    rewrite (steady_tick_due _ _ _ Hs) in IH1, IH2.
    rewrite Hn', Hn in Hnum.
    destruct (Z.eqb_spec dr (now (advance random n w) + 1)) as [Hd|Hd];
      cbn [andb negb].
    + rewrite Hn, <- Hnum, Z.eqb_refl. cbn [andb negb].
      destruct (Z.eqb_spec dt (now (advance random n w) + 1)); cbn [length]; lia.
    + destruct (Z.eqb_spec dt (now (advance random n w) + 1)); cbn [length]; lia.
Qed.


Lemma torn_down_advance n w :
  torn_down w -> advance random n w = set_now (now w + Z.of_N n) w.
Proof.
  intros H. induction n as [|n IH] using N.peano_ind.
  - rewrite advance_0. destruct w; unfold set_now; cbn [now].
    rewrite Z.add_0_r. reflexivity.
  - rewrite advance_succ, IH, advance_ms_torn_down.
    + unfold set_now; cbn [now]. rewrite N2Z.inj_succ.
      replace (now w + Z.of_N n + 1) with (now w + Z.succ (Z.of_N n)) by lia.
      reflexivity.
    + destruct H; split; assumption.
Qed.

Lemma reachable_mounted_alive w :
  reachable random w -> phase w = Mounted -> alive w.
Proof.
  intros H Hm. destruct (reachable_inv w H) as [Ha|[Ht _]]; [exact Ha|].
  congruence.
Qed.

(** Over [k] seconds without a dependency change exactly [k] ticks fire and
    the countdown loses exactly [k]. *)
Lemma stretch_seconds k w :
  alive w -> number_stable random w (1000 * k) = true ->
  let w' := advance random (1000 * k) w in
  seconds w' = seconds w - Z.of_N k /\
  length (ticks w') = (length (ticks w) + N.to_nat k)%nat.
Proof.
  intros Ha Hst. cbv zeta.
  pose proof (proj1 (number_stable_spec _ _) Hst) as Hst'.
  destruct (stable_stretch (1000 * k) w Ha Hst') as (H1 & H2).
  cbv zeta in H1, H2.
  pose proof (now_advance (1000 * k) w (or_introl Ha)) as Hn.
  destruct (alive_advance (1000 * k) w Ha) as (dr' & dt' & Hs' & _ & Hdt').
  destruct Ha as (dr & dt & Hs & _ & Hdt).
  rewrite (steady_tick_due _ _ _ Hs), (steady_tick_due _ _ _ Hs') in H1, H2.
  split; lia.
Qed.

(** Re-running the effect of useTimer: once its cleanup has run no countdown
    schedule is left, and the body then starts the only one, under a handle
    not used before. *)
Lemma useTimer_effect_rerun n w :
  alive w ->
  schedules TickCb
    (exec (old <- gets timer_effect ;; cleanup (option_map snd old)) w) = [] /\
  map tid (schedules TickCb (exec (run_effect (TimerEffect n)) w)) =
    [next_id w].
Proof.
  intros (dr & dt & (Hph & Hpd & Hq & r & t & Htm & Hrt & Hr & Ht & Hre & Hte) & _).
  destruct w as [nw tm nid k ph pd q num re secs te tr].
  cbn in Hph, Hpd, Hq, Htm, Hre, Hte, Hr, Ht. subst.
  assert (E1 : (r =? t) = false) by (apply Z.eqb_neq; lia).
  unfold schedules. split.
  - run. reflexivity.
  - destruct (10 =? secs) eqn:E2; run; reflexivity.
Qed.

(** In any window of one second the countdown's callback runs at most
    once. *)
Lemma ticks_window n w :
  alive w -> (n <= 1000)%N ->
  let w' := advance random n w in
  (length (ticks w') = length (ticks w) /\ now w < tick_due w') \/
  (length (ticks w') = S (length (ticks w)) /\ now w + 1000 < tick_due w').
Proof.
  intros Ha. induction n as [|n IH] using N.peano_ind; intros Hn; cbv zeta.
  - left. rewrite advance_0. split; [reflexivity|].
    destruct Ha as (dr & dt & Hs & _ & Hdt).
    rewrite (steady_tick_due _ _ _ Hs). lia.
  - cbv zeta in IH. rewrite advance_succ.
    pose proof (now_advance n w (or_introl Ha)) as Hnow.
    destruct (alive_advance n w Ha) as (dr & dt & Hs & Hdr & Hdt).
    destruct (advance_ms_steady dr dt _ Hs)
      as (Hs' & _ & _ & _ & _ & Htk & _); try lia.
    cbv zeta in Hs', Htk.
    rewrite (steady_tick_due _ _ _ Hs'), Htk, length_app.
    rewrite (steady_tick_due _ _ _ Hs) in IH.
    destruct (_ && negb _); cbn [andb negb length].
    + destruct IH as [[-> ?]|[-> ?]]; [lia| |]; [left|right]; lia.
    + destruct (Z.eqb_spec dt (now (advance random n w) + 1));
        cbn [length];
        (destruct IH as [[-> ?]|[-> ?]]; [lia| |]); lia.
Qed.

(** The generator's schedule fires at the multiples of 10000 ms and at no
    other time. *)
Lemma cadence n :
  let w := advance random n (mount random) in
  exists c : nat,
    now w = Z.of_N n /\
    10000 * Z.of_nat c <= now w < 10000 * (Z.of_nat c + 1) /\
    random_due w = 10000 * (Z.of_nat c + 1) /\
    map fst (emissions w) = map (fun j => 10000 * Z.of_nat j) (seq 1 c) /\
    Forall (fun e => exists k, snd e = rand (random k)) (emissions w) /\
    number w = last (map snd (emissions w)) (rand (random 0%nat)).
Proof.
  cbv zeta. induction n as [|n IH] using N.peano_ind.
  - exists 0%nat. rewrite advance_0.
    destruct mount_view as (Hn & Hnum & _ & Hem & _).
    rewrite (steady_random_due _ _ _ mount_steady), Hn, Hem, Hnum.
    repeat split; try lia. constructor.
  - destruct IH as (c & Hn & Hc & Hdue & Hfst & Hall & Hnum).
    rewrite advance_succ.
    destruct (alive_advance n _ alive_mount) as (dr & dt & Hs & Hdr & Hdt).
    rewrite (steady_random_due _ _ _ Hs) in Hdue. subst dr.
    destruct (advance_ms_steady _ dt _ Hs)
      as (Hs' & Hn' & Hnum' & _ & Hem' & _); try lia.
    cbv zeta in Hs', Hnum', Hem'.
    rewrite (steady_random_due _ _ _ Hs'), Hn', Hem', Hnum', N2Z.inj_succ.
    destruct (Z.eqb_spec (10000 * (Z.of_nat c + 1))
                (now (advance random n (mount random)) + 1)) as [Hd|Hd].
    + exists (S c). rewrite Nat2Z.inj_succ.
      split; [lia|]. split; [lia|]. split; [lia|].
      rewrite seq_S, !map_app. cbn [map fst snd].
      rewrite Hfst, last_last, Forall_app.
      repeat split; try assumption.
      * do 2 f_equal. lia.
      * constructor; [eexists; reflexivity | constructor].
    + exists c. rewrite app_nil_r.
      split; [lia|]. split; [lia|]. split; [lia|].
      repeat split; assumption.
Qed.
End Execution.

(** * Binary64 arithmetic in [rand] *)

(** 0.1, 0.1 * 3, 0.1 + 0.2 and 0.3 as doubles. *)
Example round53_tenth :
  round53 (b64_one / 10) = 3602879701896397 * 2 ^ (1074 - 55) /\
  round53 (round53 (b64_one / 10) * 3) = 5404319552844596 * 2 ^ (1074 - 54) /\
  round53 (round53 (b64_one / 10) + round53 (2 * b64_one / 10)) =
    5404319552844596 * 2 ^ (1074 - 54) /\
  round53 (3 * b64_one / 10) = 5404319552844595 * 2 ^ (1074 - 54).
Proof. vm_compute. repeat split. Qed.

Lemma pow2_half s : 0 < s -> 2 ^ s = 2 * 2 ^ (s - 1) /\ 0 < 2 ^ (s - 1).
Proof.
  intros H. split.
  - replace s with (Z.succ (s - 1)) at 1 by lia. apply Z.pow_succ_r. lia.
  - apply Z.pow_pos_nonneg; lia.
Qed.

(** Unfold [round53 X] when rounding takes place: [P] is the spacing of the
    doubles around [X], [h] half of it, [q] and [rem] the quotient and the
    remainder of [X] by [P]; what is left compares the rounded quotient. *)
Ltac open_round53 X Hs :=
  unfold round53;
  set (s := Z.log2 X - 52) in *;
  destruct (Z.leb_spec s 0); [lia|];
  let Hp := fresh "Hp" in let Hh := fresh "Hh" in
  destruct (pow2_half s Hs) as (Hp & Hh);
  set (P := 2 ^ s) in *; set (h := 2 ^ (s - 1)) in *;
  pose proof (Z.div_mod X P ltac:(lia)) as Hdm;
  pose proof (Z.mod_pos_bound X P ltac:(lia)) as Hr;
  set (q := X / P) in *; set (rem := X mod P) in *;
  apply Z.mul_le_mono_nonneg_r; [lia|].

Lemma round53_le_grid X M :
  0 <= X -> 0 < Z.log2 X - 52 -> X <= M * 2 ^ (Z.log2 X - 52) ->
  round53 X <= M * 2 ^ (Z.log2 X - 52).
Proof.
  intros HX Hs HM. open_round53 X Hs.
  assert (Hq : q <= M) by nia.
  destruct (Z.ltb_spec rem h); [exact Hq|].
  assert (q < M) by nia.
  destruct (Z.ltb_spec h rem); [lia|]. destruct (Z.even q); lia.
Qed.

Lemma round53_below_midpoint X M :
  0 <= X -> 0 < Z.log2 X - 52 ->
  X < (M - 1) * 2 ^ (Z.log2 X - 52) + 2 ^ (Z.log2 X - 52 - 1) ->
  round53 X <= (M - 1) * 2 ^ (Z.log2 X - 52).
Proof.
  intros HX Hs HM. open_round53 X Hs.
  assert (Hq : q <= M - 1) by nia.
  destruct (Z.ltb_spec rem h); [exact Hq|].
  assert (q < M - 1) by nia.
  destruct (Z.ltb_spec h rem); [lia|]. destruct (Z.even q); lia.
Qed.

Lemma round53_ge_grid X M :
  0 <= X -> 0 < Z.log2 X - 52 -> M * 2 ^ (Z.log2 X - 52) <= X ->
  M * 2 ^ (Z.log2 X - 52) <= round53 X.
Proof.
  intros HX Hs HM. open_round53 X Hs.
  assert (Hq : M <= q) by nia.
  destruct (Z.ltb_spec rem h); [exact Hq|].
  destruct (Z.ltb_spec h rem); [lia|]. destruct (Z.even q); lia.
Qed.

Lemma round53_exact X : Z.log2 X - 52 <= 0 -> round53 X = X.
Proof.
  intros H. unfold round53.
  destruct (Z.leb_spec (Z.log2 X - 52) 0); [reflexivity|lia].
Qed.

Lemma round53_le_binade X : 0 < X -> round53 X <= 2 ^ (Z.log2 X + 1).
Proof.
  intros HX.
  destruct (Z.log2_spec X HX) as (Hlo & Hhi).
  rewrite <- Z.add_1_r in Hhi.
  destruct (Z.le_gt_cases (Z.log2 X - 52) 0) as [Hs|Hs].
  - rewrite round53_exact by exact Hs. lia.
  - replace (2 ^ (Z.log2 X + 1)) with (2 ^ 53 * 2 ^ (Z.log2 X - 52)).
    + apply round53_le_grid; [lia|lia|].
      rewrite <- Z.pow_add_r by lia.
      replace (53 + (Z.log2 X - 52)) with (Z.log2 X + 1) by lia. lia.
    + rewrite <- Z.pow_add_r by lia. f_equal. lia.
Qed.

Lemma round53_nonneg X : 0 <= X -> 0 <= round53 X.
Proof.
  intros HX.
  destruct (Z.le_gt_cases (Z.log2 X - 52) 0) as [Hs|Hs].
  - rewrite round53_exact by exact Hs. exact HX.
  - pose proof (round53_ge_grid X 0 HX Hs). lia.
Qed.

Lemma round53_multiple X :
  0 < Z.log2 X - 52 -> exists k, round53 X = k * 2 ^ (Z.log2 X - 52).
Proof.
  intros Hs. unfold round53.
  destruct (Z.leb_spec (Z.log2 X - 52) 0); [lia|].
  eexists; reflexivity.
Qed.

(** A double below 1 is at most 1 - 2^-53. *)
Lemma below_one R :
  0 <= R < b64_one -> round53 R = R -> R <= b64_one - 2 ^ 1021.
Proof.
  intros [H0 H1] Hrep. unfold b64_one in *.
  destruct (Z.eq_dec R 0) as [->|Hne]; [vm_compute; discriminate|].
  assert (HL : Z.log2 R < 1074) by (apply Z.log2_lt_pow2; lia).
  destruct (Z.eq_dec (Z.log2 R) 1073) as [HE|HE].
  - destruct (round53_multiple R) as (k & Hk); [lia|].
    rewrite Hrep, HE in Hk. change (1073 - 52) with 1021 in Hk.
    assert (E : 2 ^ 1074 = 2 ^ 53 * 2 ^ 1021) by reflexivity.
    assert (P : 0 < 2 ^ 1021) by reflexivity.
    rewrite E in *. nia.
  - destruct (Z.log2_spec R ltac:(lia)) as (_ & Hhi).
    assert (2 ^ Z.succ (Z.log2 R) <= 2 ^ 1073) by (apply Z.pow_le_mono_r; lia).
    assert (2 ^ 1073 <= 2 ^ 1074 - 2 ^ 1021) by (vm_compute; discriminate).
    lia.
Qed.

(** The product: at most the double just below 9000. *)
Lemma product_below_9000 R :
  0 <= R <= b64_one - 2 ^ 1021 ->
  0 <= round53 (R * 9000) <= 9000 * b64_one - 2 ^ 1035.
Proof.
  intros [H0 H1]. split; [apply round53_nonneg; lia|].
  set (X := R * 9000).
  assert (HX : 0 <= X <= 9000 * b64_one - 9000 * 2 ^ 1021) by (unfold X; lia).
  destruct (Z.eq_dec X 0) as [->|Hne]; [vm_compute; discriminate|].
  assert (HL : Z.log2 X < 1088).
  { apply Z.log2_lt_pow2; [lia|].
    assert (9000 * b64_one < 2 ^ 1088) by reflexivity.
    assert (0 < 2 ^ 1021) by reflexivity. lia. }
  destruct (Z.eq_dec (Z.log2 X) 1087) as [HE|HE].
  - pose proof (round53_below_midpoint X (9000 * 2 ^ 39)) as H.
    rewrite HE in H. change (1087 - 52) with 1035 in H.
    change (1035 - 1) with 1034 in H.
    assert (E1 : 9000 * b64_one = 9000 * 2 ^ 39 * 2 ^ 1035) by reflexivity.
    assert (E2 : 2 ^ 1035 = 2 * 2 ^ 1034) by reflexivity.
    assert (E3 : 2 ^ 1034 = 8192 * 2 ^ 1021) by reflexivity.
    assert (P : 0 < 2 ^ 1021) by reflexivity.
    lia.
  - pose proof (round53_le_binade X ltac:(lia)) as H.
    assert (2 ^ (Z.log2 X + 1) <= 2 ^ 1087) by (apply Z.pow_le_mono_r; lia).
    assert (2 ^ 1087 <= 9000 * b64_one - 2 ^ 1035) by (vm_compute; discriminate).
    lia.
Qed.

(** The sum: between 1000 and the double just below 10000. *)
Lemma sum_range P :
  0 <= P <= 9000 * b64_one - 2 ^ 1035 ->
  1000 * b64_one <= round53 (P + 1000 * b64_one) <= 10000 * b64_one - 2 ^ 1035.
Proof.
  intros [H0 H1]. set (Y := P + 1000 * b64_one).
  assert (HY : 1000 * b64_one <= Y <= 10000 * b64_one - 2 ^ 1035) by (unfold Y; lia).
  assert (Hone : 0 < b64_one) by reflexivity.
  assert (P35 : 0 < 2 ^ 1035) by reflexivity.
  assert (HLlo : 1083 <= Z.log2 Y).
  { apply Z.log2_le_pow2; [lia|].
    assert (2 ^ 1083 <= 1000 * b64_one) by (vm_compute; discriminate). lia. }
  assert (HLhi : Z.log2 Y < 1088).
  { apply Z.log2_lt_pow2; [lia|].
    assert (10000 * b64_one < 2 ^ 1088) by reflexivity. lia. }
  split.
  - pose proof (round53_ge_grid Y (1000 * 2 ^ (1074 - (Z.log2 Y - 52)))) as H.
    replace (1000 * 2 ^ (1074 - (Z.log2 Y - 52)) * 2 ^ (Z.log2 Y - 52))
      with (1000 * b64_one) in H.
    + apply H; lia.
    + rewrite <- Z.mul_assoc, <- Z.pow_add_r by lia.
      unfold b64_one. do 2 f_equal. lia.
  - destruct (Z.eq_dec (Z.log2 Y) 1087) as [HE|HE].
    + pose proof (round53_le_grid Y (10000 * 2 ^ 39 - 1)) as H.
      rewrite HE in H. change (1087 - 52) with 1035 in H.
      assert (E1 : 10000 * b64_one - 2 ^ 1035 = (10000 * 2 ^ 39 - 1) * 2 ^ 1035)
        by reflexivity.
      lia.
    + pose proof (round53_le_binade Y ltac:(lia)) as H.
      assert (2 ^ (Z.log2 Y + 1) <= 2 ^ 1087) by (apply Z.pow_le_mono_r; lia).
      assert (2 ^ 1087 <= 10000 * b64_one - 2 ^ 1035) by (vm_compute; discriminate).
      lia.
Qed.

(** X3: with the two roundings of binary64 arithmetic the generated value
    stays in the same range, for every double [R] in [0, 1). *)
Lemma rand64_range R :
  0 <= R < b64_one -> round53 R = R -> 1000 <= rand64 R <= 9999.
Proof.
  intros HR Hrep. unfold rand64.
  pose proof (below_one R HR Hrep) as Hb.
  pose proof (product_below_9000 R ltac:(lia)) as Hp.
  pose proof (sum_range _ Hp) as Hs.
  assert (Hone : 0 < b64_one) by reflexivity.
  assert (P35 : 0 < 2 ^ 1035) by reflexivity.
  split.
  - apply Z.div_le_lower_bound; lia.
  - assert (round53 (round53 (R * 9000) + 1000 * b64_one) / b64_one < 10000); [|lia].
    apply Z.div_lt_upper_bound; lia.
Qed.

Example rand64_largest : rand64 (b64_one - 2 ^ 1021) = 9999.
Proof. vm_compute. reflexivity. Qed.

Example rand64_exact : rand64 (15 * b64_one / 16) = rand (15 # 16).
Proof. vm_compute. reflexivity. Qed.

(** * The claims *)

(** ** The generation function *)



(** C2: the comment on [rand] promises a number between 1000 and 9000; for
    [Math.random()] = 0.9375, which lies in [0, 1), the code returns 9437,
    outside [1000, 9000). *)
Theorem rand_exceeds_9000 :
  (0 <= 15 # 16)%Q /\ (15 # 16 < 1)%Q /\
  rand (15 # 16) = 9437 /\ ~ (1000 <= rand (15 # 16) < 9000).
Proof.
  split; [unfold Qle; simpl; lia|].
  split; [unfold Qlt; simpl; lia|].
  split; [reflexivity|].
  vm_compute. intros [_ H]. discriminate H.
Qed.

(** ** The countdown *)

(** C10: in every reachable state the countdown is at most 10. *)
Theorem seconds_at_most_10 (random : nat -> Q) (w : world) :
  reachable random w -> seconds w <= 10.
Proof.
  intros H.
  assert (Hinv : (alive w \/ torn_down w) /\ seconds w <= 10).
  { induction H as [|w H [IH Hle]|w H [IH Hle]].
    - split; [left; apply alive_mount|].
      destruct (mount_view random) as (_ & _ & -> & _). lia.
    - destruct IH as [Ha|Ht].
      + split; [left; apply alive_step; exact Ha|].
        destruct Ha as (dr & dt & Hs & Hdr & Hdt).
        destruct (advance_ms_steady random dr dt w Hs) as (_ & _ & _ & -> & _);
          try lia.
        cbv zeta.
        destruct (_ && _); [lia|]. destruct (_ && _); lia.
      + split; [right; apply torn_down_step; exact Ht|].
        rewrite advance_ms_torn_down by exact Ht. exact Hle.
    - destruct IH as [Ha|Ht].
      + destruct (unmount_alive w Ha) as (Ht & _ & _ & -> & _).
        split; [right; exact Ht | exact Hle].
      + rewrite unmount_torn_down by exact Ht.
        split; [right; exact Ht | exact Hle]. }
  apply Hinv.
Qed.

Lemma seconds_at_most_10_witness :
  seconds (advance_ms always_half (mount always_half)) <= 10.
Proof.
  apply (seconds_at_most_10 always_half).
  apply reach_ms, reach_mount.
Defined.

(** C8: the countdown starts at 10, and over any [k] seconds in which the
    dependency does not change, [k] ticks fire and each takes exactly 1 from
    [seconds]. *)
Theorem countdown_decrements (random : nat -> Q) (w : world) (k : N) :
  reachable random w -> phase w = Mounted ->
  number_stable random w (1000 * k) = true ->
  seconds (mount random) = 10 /\
  let w' := advance random (1000 * k) w in
  seconds w' = seconds w - Z.of_N k /\
  length (ticks w') = (length (ticks w) + N.to_nat k)%nat.
Proof.
  intros Hr Hm Hst. split.
  - destruct (mount_view random) as (_ & _ & H & _). exact H.
  - apply stretch_seconds;
      [apply (reachable_mounted_alive random)|]; assumption.
Qed.

Lemma countdown_decrements_witness :
  seconds (mount always_half) = 10 /\
  let w' := advance always_half (1000 * 3) (mount always_half) in
  seconds w' = seconds (mount always_half) - Z.of_N 3 /\
  length (ticks w') = (length (ticks (mount always_half)) + N.to_nat 3)%nat.
Proof.
  apply (countdown_decrements always_half (mount always_half) 3).
  - apply reach_mount.
  - vm_compute; reflexivity.
  - vm_compute; reflexivity.
Defined.

(** C6: the countdown is not clamped at zero: [k] seconds after a reset,
    with no dependency change in between, [seconds] is [10 - k], below zero
    once [k] exceeds 10. *)
Theorem countdown_not_clamped (random : nat -> Q) (w : world) (k : N) :
  reachable random w -> phase w = Mounted -> seconds w = 10 ->
  number_stable random w (1000 * k) = true ->
  let w' := advance random (1000 * k) w in
  seconds w' = 10 - Z.of_N k /\ (10 < Z.of_N k -> seconds w' < 0).
Proof.
  intros Hr Hm H10 Hst.
  destruct (stretch_seconds random k w) as (Hs & _);
    [apply (reachable_mounted_alive random); assumption | assumption |].
  cbv zeta in *. rewrite Hs, H10. split; lia.
Qed.

Lemma countdown_not_clamped_witness :
  let w' := advance always_half (1000 * 12) (mount always_half) in
  seconds w' = 10 - Z.of_N 12 /\ (10 < Z.of_N 12 -> seconds w' < 0).
Proof.
  apply (countdown_not_clamped always_half (mount always_half) 12).
  - apply reach_mount.
  - vm_compute; reflexivity.
  - vm_compute; reflexivity.
  - vm_compute; reflexivity.
Defined.

(** ** Teardown *)

(** C9: after the unmount, which runs the cleanup of both hooks, neither
    schedule is left and no callback fires again: however far the clock
    advances, nothing is emitted, ticked or rendered, and the two values stay
    as they were. *)
Theorem no_callback_after_unmount (random : nat -> Q) (w : world) (n : N) :
  reachable random w ->
  let u := unmount w in
  let w' := advance random n u in
  schedules RandomCb u = [] /\ schedules TickCb u = [] /\
  trace w' = trace u /\ emissions w' = emissions u /\ ticks w' = ticks u /\
  number w' = number u /\ seconds w' = seconds u.
Proof.
  intros Hr. cbv zeta.
  assert (Ht : torn_down (unmount w)).
  { destruct (reachable_inv random w Hr) as [Ha|Ht].
    - apply unmount_alive; exact Ha.
    - rewrite unmount_torn_down; exact Ht. }
  rewrite torn_down_advance by exact Ht.
  destruct Ht as (_ & Htm). unfold schedules, emissions, ticks.
  rewrite Htm. cbn. repeat split.
Qed.

Lemma no_callback_after_unmount_witness :
  let u := unmount (advance_ms half_then_new (mount half_then_new)) in
  let w' := advance half_then_new 25000 u in
  schedules RandomCb u = [] /\ schedules TickCb u = [] /\
  trace w' = trace u /\ emissions w' = emissions u /\ ticks w' = ticks u /\
  number w' = number u /\ seconds w' = seconds u.
Proof.
  apply (no_callback_after_unmount half_then_new
           (advance_ms half_then_new (mount half_then_new)) 25000).
  apply reach_ms, reach_mount.
Defined.

(** ** The generator *)


(** ** The reset of the countdown *)




(** C5: in every reachable state the countdown has at most one schedule,
    exactly one while App is mounted; a reset leaves one schedule whose
    handle was not in use before, the previous one being cleared; and in any
    window of one second the countdown's callback runs at most once. *)
Theorem one_countdown_schedule (random : nat -> Q) (w : world) :
  reachable random w ->
  (length (schedules TickCb w) <= 1)%nat /\
  (phase w = Mounted -> length (schedules TickCb w) = 1%nat) /\
  (forall t v,
      emissions (advance_ms random w) = emissions w ++ [(t, v)] ->
      v <> number w ->
      map tid (schedules TickCb (advance_ms random w)) = [next_id w] /\
      ~ In (next_id w) (map tid (timers w))) /\
  (phase w = Mounted ->
   forall randomNumber,
     schedules TickCb
       (exec (old <- gets timer_effect ;; cleanup (option_map snd old)) w) = [] /\
     map tid (schedules TickCb
                (exec (run_effect (TimerEffect randomNumber)) w)) =
       [next_id w]) /\
  (length (ticks (advance random 1000 w)) <= length (ticks w) + 1)%nat.
Proof.
  intros Hr.
  destruct (reachable_inv random w Hr) as [Ha|Ht].
  - pose proof (ticks_window random 1000 w Ha (N.le_refl _)) as Hwin.
    pose proof (fun n => useTimer_effect_rerun n w Ha) as Hrerun.
    destruct Ha as (dr & dt & Hs & Hdr & Hdt).
    pose proof Hs as (_ & _ & _ & r & t0 & Htm & Hrt & Hrn & Htn & _).
    unfold schedules at 1 2. rewrite Htm. cbn [filter cb callback_eqb length].
    split; [lia|]. split; [reflexivity|].
    split; [|split; [intros _; exact Hrerun|]].
    + intros t v Hem Hv.
      destruct (advance_ms_steady random dr dt w Hs)
        as (_ & _ & _ & _ & Hem' & _ & _ & Hids); try lia.
      cbv zeta in Hem', Hids.
      rewrite Hem' in Hem. apply app_inv_head in Hem.
      destruct (dr =? now w + 1); [|discriminate Hem].
      injection Hem as _ Hv'. rewrite Hv' in Hids.
      replace (v =? number w) with false in Hids
        by (symmetry; apply Z.eqb_neq; exact Hv).
      cbn [andb negb] in Hids. split; [exact Hids|].
      cbn [map tid In]. lia.
    + cbv zeta in Hwin. destruct Hwin as [[-> _]|[-> _]]; lia.
  - pose proof Ht as (Hph & Htm).
    unfold schedules at 1 2. rewrite Htm. cbn [filter length].
    split; [lia|]. split; [congruence|].
    split; [|split; [congruence|]].
    + intros t v Hem _. exfalso.
      rewrite advance_ms_torn_down in Hem by exact Ht.
      apply (f_equal (@length _)) in Hem. rewrite length_app in Hem.
      unfold emissions in Hem; cbn in Hem. lia.
    + rewrite torn_down_advance by exact Ht. unfold ticks; cbn. lia.
Qed.

Lemma one_countdown_schedule_witness :
  let w := advance half_then_new 9999 (mount half_then_new) in
  (length (schedules TickCb w) <= 1)%nat /\
  (phase w = Mounted -> length (schedules TickCb w) = 1%nat) /\
  (forall t v,
      emissions (advance_ms half_then_new w) = emissions w ++ [(t, v)] ->
      v <> number w ->
      map tid (schedules TickCb (advance_ms half_then_new w)) = [next_id w] /\
      ~ In (next_id w) (map tid (timers w))) /\
  (phase w = Mounted ->
   forall randomNumber,
     schedules TickCb
       (exec (old <- gets timer_effect ;; cleanup (option_map snd old)) w) = [] /\
     map tid (schedules TickCb
                (exec (run_effect (TimerEffect randomNumber)) w)) =
       [next_id w]) /\
  (length (ticks (advance half_then_new 1000 w)) <= length (ticks w) + 1)%nat.
Proof.
  apply (one_countdown_schedule half_then_new
           (advance half_then_new 9999 (mount half_then_new))).
  apply reachable_advance, reach_mount.
Defined.

(** ** End to end *)




(** * Further properties of the hooks *)

Section Coverage.
Variable random : nat -> Q.

Ltac run_hooks :=
  repeat first
    [ progress hook_eval
    | unfold NESTED_UPDATE_LIMIT;
      first [ rewrite flush_idle by reflexivity
            | rewrite flush_step by reflexivity ]
    | rewrite Z.eqb_refl ].

(** The world right after the mount: one render, two intervals. *)
Lemma mount_world :
  mount random =
  mkWorld 0 [mkTimer 1 10000 10000 RandomCb; mkTimer 2 1000 1000 TickCb] 3 1
    Mounted false [] (rand (random 0%nat)) (Some 1) 10
    (Some (rand (random 0%nat), 2)) [EvRender 0 (rand (random 0%nat)) 10].
Proof. unfold mount, initial. run_hooks. reflexivity. Qed.

Lemma unmount_keeps w :
  draws (unmount w) = draws w /\ trace (unmount w) = trace w /\
  number (unmount w) = number w /\ seconds (unmount w) = seconds w /\
  now (unmount w) = now w.
Proof.
  destruct w as [nw tm nid k ph pd q num re secs te tr].
  unfold unmount; cbn [phase].
  destruct ph; try (repeat split; reflexivity).
  destruct re, te as [[? ?]|]; repeat split; reflexivity.
Qed.

(** One millisecond on a steady world: what is rendered, and which handles
    are in use. *)
Lemma advance_ms_steady_ext dr dt w :
  steady dr dt w -> now w < dr -> now w < dt ->
  let n1 := now w + 1 in
  let v := rand (random (draws w)) in
  let fired := dr =? n1 in
  let reset := fired && negb (v =? number w) in
  let ticked := negb reset && (dt =? n1) in
  let w' := advance_ms random w in
  map tid (schedules RandomCb w') = map tid (schedules RandomCb w) /\
  renders w' =
    renders w ++
    (if reset
     then (n1, v, seconds w) :: (if 10 =? seconds w then [] else [(n1, v, 10)])
     else []) ++
    (if ticked then [(n1, number w, seconds w - 1)] else []) /\
  displayed w' =
    (if reset || ticked then Some (number w', seconds w') else displayed w).
Proof.
  destruct w as [nw tm nid k ph pd q num re secs te tr].
  intros (Hph & Hpd & Hq & r & t & Htm & Hrt & Hr & Ht & Hre & Hte) Hdr Hdt.
  cbn in Hph, Hpd, Hq, Htm, Hr, Ht, Hre, Hte, Hdr, Hdt. subst.
  cbv zeta. rewrite advance_ms_two.
  cbn [now draws number seconds].
  unfold renders, displayed.
  destruct (Z.eqb_spec dr (nw + 1)) as [Hd|Hd].
  - destruct (Z.eqb_spec (rand (random k)) num) as [Hv|Hv].
    + rewrite fire_random_same by (auto; lia).
      destruct (Z.eqb_spec dt (nw + 1)) as [Hd'|Hd'].
      * rewrite fire_tick by (auto; lia).
        cbn; rewrite ?app_nil_r. repeat split.
      * rewrite fire_not_due with (id := t) (t := mkTimer t dt 1000 TickCb).
        -- cbn; rewrite ?app_nil_r. repeat split.
        -- cbn. rewrite (proj2 (Z.eqb_neq r t)), Z.eqb_refl; auto.
        -- cbn; lia.
    + rewrite fire_random_new by (auto; lia).
      rewrite fire_absent.
      * destruct (Z.eqb_spec 10 secs) as [<-|Hs];
          cbn; rewrite ?app_nil_r, <- ?app_assoc; repeat split.
      * cbn. rewrite (proj2 (Z.eqb_neq r t)), (proj2 (Z.eqb_neq nid t)); auto; lia.
  - rewrite fire_not_due with (id := r) (t := mkTimer r dr 10000 RandomCb).
    + destruct (Z.eqb_spec dt (nw + 1)) as [Hd'|Hd'].
      * rewrite fire_tick by (auto; lia).
        cbn; rewrite ?app_nil_r. repeat split.
      * rewrite fire_not_due with (id := t) (t := mkTimer t dt 1000 TickCb).
        -- cbn; rewrite ?app_nil_r. repeat split.
        -- cbn. rewrite (proj2 (Z.eqb_neq r t)), Z.eqb_refl; auto.
        -- cbn; lia.
    + cbn. rewrite Z.eqb_refl; auto.
    + cbn; lia.
Qed.

(** Invariants of every reachable state, beyond those the claims needed. *)
Lemma reachable_more w :
  reachable random w ->
  (draws w = length (renders w) + length (emissions w))%nat /\
  displayed w = Some (number w, seconds w) /\
  Forall (fun t => exists a, t = 1000 * a) (ticks w) /\
  (phase w = Mounted ->
   map tid (schedules RandomCb w) = [1] /\
   1000 * seconds w + tick_due w <= random_due w + 1000 /\
   (exists a, tick_due w = 1000 * a) /\
   (exists b, random_due w = 10000 * b)).
Proof.
  intros H. induction H as [|w H IH|w H IH].
  - rewrite mount_world.
    unfold renders, emissions, displayed, ticks, tick_due, random_due, schedules.
    cbn. repeat split; try constructor; try lia.
    + exists 1; reflexivity.
    + exists 1; reflexivity.
  - destruct IH as (Id & Idisp & Itk & Im).
    destruct (reachable_inv random w H) as [(dr & dt & Hs & Hdr & Hdt)|Ht].
    + destruct (Im (proj1 Hs)) as (Irid & Ipsi & (a & Ia) & (b & Ib)).
      destruct (advance_ms_steady random dr dt w Hs)
        as (Hs' & Hn & Hnum & Hsec & Hem & Htk & Hdraws & _); try lia.
      destruct (advance_ms_steady_ext dr dt w Hs) as (Hrid & Hren & Hdisp);
        try lia.
      cbv zeta in Hs', Hn, Hnum, Hsec, Hem, Htk, Hdraws, Hrid, Hren, Hdisp.
      rewrite (steady_tick_due _ _ _ Hs) in Ipsi, Ia.
      rewrite (steady_random_due _ _ _ Hs) in Ipsi, Ib.
      rewrite (steady_tick_due _ _ _ Hs'), (steady_random_due _ _ _ Hs').
      rewrite Hrid, Hdisp, Hnum, Hsec, Hdraws, Hren, Hem, Htk, Irid.
      rewrite !length_app, Forall_app.
      destruct (Z.eqb_spec dr (now w + 1)) as [Hd|Hd];
        destruct (Z.eqb_spec (rand (random (draws w))) (number w)) as [Hv|Hv];
        destruct (Z.eqb_spec dt (now w + 1)) as [Hd'|Hd'];
        destruct (Z.eqb_spec 10 (seconds w)) as [H10|H10];
        cbn [andb negb orb length app];
        (split; [lia|]);
        (split; [first [reflexivity | congruence]|]);
        (split; [split; [exact Itk|];
                 first [constructor; [exists a; lia|constructor] | constructor]|]);
        intros _;
        (split; [reflexivity|]); (split; [lia|]);
        (split; [first [exists a; lia | exists (a + 1); lia
                       | exists (10 * b + 1); lia]|]);
        first [exists b; lia | exists (b + 1); lia].
    + rewrite advance_ms_torn_down by exact Ht.
      unfold renders, emissions, displayed, ticks in *. cbn.
      split; [assumption|]. split; [assumption|]. split; [assumption|].
      destruct Ht as (Hph & _). intros Hm; rewrite Hph in Hm; discriminate.
  - destruct IH as (Id & Idisp & Itk & Im).
    destruct (unmount_keeps w) as (Kd & Kt & Kn & Ks & _).
    unfold renders, emissions, displayed, ticks in *.
    rewrite Kd, Kt, Kn, Ks.
    split; [assumption|]. split; [assumption|]. split; [assumption|].
    assert (Ht : torn_down (unmount w)).
    { destruct (reachable_inv random w H) as [Ha|Ht].
      - apply unmount_alive; exact Ha.
      - rewrite unmount_torn_down; exact Ht. }
    destruct Ht as (Hph & _). intros Hm; rewrite Hph in Hm; discriminate.
Qed.

Lemma adjacent_distinct_app l l' :
  adjacent_distinct (l ++ l') = true -> adjacent_distinct l = true.
Proof.
  induction l as [|a [|b l] IH]; intros H; try reflexivity.
  cbn [app adjacent_distinct] in H |- *.
  apply andb_true_iff in H as (H1 & H2). rewrite H1. cbn [andb].
  apply IH. exact H2.
Qed.

Lemma last_default (l : list Z) a b : l <> [] -> last l a = last l b.
Proof.
  induction l as [|x [|y l] IH]; intros H; [contradiction|reflexivity|].
  change (last (y :: l) a = last (y :: l) b). apply IH. discriminate.
Qed.

Lemma adjacent_distinct_last l a v :
  adjacent_distinct (a :: l ++ [v]) = true -> last l a <> v.
Proof.
  revert a. induction l as [|b l IH]; intros a H.
  - cbn in H |- *. rewrite andb_true_r in H.
    apply negb_true_iff, Z.eqb_neq in H. exact H.
  - change (adjacent_distinct (a :: b :: l ++ [v]))
      with (negb (a =? b) && adjacent_distinct (b :: l ++ [v])) in H.
    apply andb_true_iff in H as (_ & H).
    specialize (IH b H).
    destruct l as [|c l]; [exact IH|].
    change (last (b :: c :: l) a) with (last (c :: l) a).
    rewrite (last_default (c :: l) a b) by discriminate. exact IH.
Qed.

(** While every emitted number differs from the one before, the countdown
    is a function of the clock alone. *)
Lemma fresh_numbers_countdown n :
  let w := advance random n (mount random) in
  adjacent_distinct (rand (random 0%nat) :: map snd (emissions w)) = true ->
  tick_due w = 1000 * (Z.of_N n / 1000 + 1) /\
  seconds w = 10 - (Z.of_N n mod 10000) / 1000.
Proof.
  cbv zeta. induction n as [|n IH] using N.peano_ind.
  - intros _. rewrite advance_0, mount_world. split; reflexivity.
  - rewrite advance_succ, N2Z.inj_succ.
    destruct (cadence random n) as (c & Hn & Hc & Hdue & _ & _ & Hnum).
    cbv zeta in Hn, Hc, Hdue, Hnum.
    destruct (alive_advance random n _ (alive_mount random))
      as (dr & dt & Hs & Hdr & Hdt).
    rewrite (steady_random_due _ _ _ Hs) in Hdue.
    rewrite (steady_tick_due _ _ _ Hs) in IH.
    destruct (advance_ms_steady random dr dt _ Hs)
      as (Hs' & _ & _ & Hsec & Hem & _); try lia.
    cbv zeta in Hs', Hsec, Hem.
    rewrite (steady_tick_due _ _ _ Hs'), Hsec, Hem, Hn. clear Hs' Hsec Hem.
    set (z := Z.of_N n) in *.
    destruct (Z.eqb_spec dr (z + 1)) as [Hd|Hd]; cbn [andb negb].
    + rewrite map_app. cbn [map snd]. intros Hadj.
      pose proof (adjacent_distinct_last _ _ _ Hadj) as Hne.
      rewrite <- Hnum in Hne.
      replace (rand (random (draws (advance random n (mount random)))) =?
               number (advance random n (mount random))) with false
        by (symmetry; apply Z.eqb_neq; congruence).
      cbn [andb negb]. clear IH.
      split; Z.div_mod_to_equations; lia.
    + rewrite app_nil_r. intros Hadj. destruct (IH Hadj) as (IH1 & IH2).
      destruct (Z.eqb_spec dt (z + 1)) as [Hd'|Hd'];
        split; Z.div_mod_to_equations; lia.
Qed.
End Coverage.

(** ** The generation function *)





Lemma rand64_range_witness : 1000 <= rand64 (b64_one / 2) <= 9999.
Proof.
  apply (rand64_range (b64_one / 2)).
  - vm_compute. split; [discriminate | reflexivity].
  - vm_compute. reflexivity.
Defined.

(** ** useRandom *)



(** X5: useRandom's effect runs once: while App is mounted its interval is
    the one created at mount, handle 1 and period 10000, next to the single
    interval of useTimer, period 1000; once App is unmounted no interval is
    left. *)
Theorem intervals_of_app (random : nat -> Q) (w : world) :
  reachable random w ->
  (phase w = Mounted ->
   exists dr dt t,
     timers w = [mkTimer 1 dr 10000 RandomCb; mkTimer t dt 1000 TickCb] /\
     t <> 1 /\ random_effect w = Some 1) /\
  (phase w <> Mounted -> timers w = []).
Proof.
  intros H.
  destruct (reachable_more random w H) as (_ & _ & _ & Hm).
  destruct (reachable_inv random w H) as [(dr & dt & Hs & _)|(Hph & Htm)].
  - pose proof Hs as (Hph & _ & _ & r & t & Htm & Hrt & _ & _ & Hre & _).
    split; [|congruence]. intros _.
    destruct (Hm Hph) as (Hid & _).
    unfold schedules in Hid. rewrite Htm in Hid. cbn in Hid.
    injection Hid as ->.
    exists dr, dt, t. repeat split; [exact Htm | congruence | exact Hre].
  - split; [congruence|]. intros _. exact Htm.
Qed.

Lemma intervals_of_app_witness :
  let w := advance half_then_new 10000 (mount half_then_new) in
  (phase w = Mounted ->
   exists dr dt t,
     timers w = [mkTimer 1 dr 10000 RandomCb; mkTimer t dt 1000 TickCb] /\
     t <> 1 /\ random_effect w = Some 1) /\
  (phase w <> Mounted -> timers w = []).
Proof.
  apply (intervals_of_app half_then_new).
  apply reachable_advance, reach_mount.
Defined.



(** ** useTimer *)

(** X6: a tick does not restart the countdown's interval: as long as the
    number does not change, the interval keeps its handle, the effect not
    being re-run by the renders the ticks cause. *)
Theorem tick_keeps_schedule (random : nat -> Q) (w : world) (n : N) :
  reachable random w -> phase w = Mounted ->
  number_stable random w n = true ->
  map tid (schedules TickCb (advance random n w)) =
  map tid (schedules TickCb w).
Proof.
  intros Hr Hm Hst.
  pose proof (reachable_mounted_alive random w Hr Hm) as Ha.
  pose proof (proj1 (number_stable_spec random n w) Hst) as Hst'. clear Hst.
  induction n as [|n IH] using N.peano_ind; [reflexivity|].
  rewrite advance_succ, <- IH by (intros; apply Hst'; lia).
  assert (Hn : number (advance random n w) = number w) by (apply Hst'; lia).
  assert (Hn' : number (advance random (N.succ n) w) = number w)
    by (apply Hst'; lia).
  rewrite advance_succ in Hn'.
  destruct (alive_advance random n w Ha) as (dr & dt & Hs & Hdr & Hdt).
  destruct (advance_ms_steady random dr dt _ Hs)
    as (_ & _ & Hnum & _ & _ & _ & _ & Hids); try lia.
  cbv zeta in Hnum, Hids. rewrite Hids.
  rewrite Hn', Hn in Hnum. rewrite Hn.
  destruct (dr =? now (advance random n w) + 1); [|reflexivity].
  rewrite <- Hnum, Z.eqb_refl. reflexivity.
Qed.

Lemma tick_keeps_schedule_witness :
  map tid (schedules TickCb (advance always_half 12000 (mount always_half))) =
  map tid (schedules TickCb (mount always_half)).
Proof.
  apply (tick_keeps_schedule always_half (mount always_half) 12000).
  - apply reach_mount.
  - vm_compute; reflexivity.
  - vm_compute; reflexivity.
Defined.

(** X7: the countdown never overstates the time left: while App is mounted
    the next number is more than [seconds - 1] seconds away. *)
Theorem countdown_never_overstates (random : nat -> Q) (w : world) :
  reachable random w -> phase w = Mounted ->
  now w < random_due w /\
  1000 * (seconds w - 1) < random_due w - now w.
Proof.
  intros Hr Hm.
  destruct (reachable_more random w Hr) as (_ & _ & _ & Hmore).
  destruct (Hmore Hm) as (_ & Hpsi & _).
  destruct (reachable_mounted_alive random w Hr Hm) as (dr & dt & Hs & Hdr & Hdt).
  rewrite (steady_tick_due _ _ _ Hs), (steady_random_due _ _ _ Hs) in *.
  lia.
Qed.

Lemma countdown_never_overstates_witness :
  let w := advance always_half 12345 (mount always_half) in
  now w < random_due w /\
  1000 * (seconds w - 1) < random_due w - now w.
Proof.
  apply (countdown_never_overstates always_half).
  - apply reachable_advance, reach_mount.
  - vm_compute; reflexivity.
Defined.

(** X8: as long as every emitted number differs from the one before it, the
    countdown depends on the clock alone: [n] ms after the mount it shows
    [10 - (n mod 10000) / 1000], a value from 1 to 10. *)
Theorem countdown_closed_form (random : nat -> Q) (n : N) :
  let w := advance random n (mount random) in
  adjacent_distinct (rand (random 0%nat) :: map snd (emissions w)) = true ->
  seconds w = 10 - (Z.of_N n mod 10000) / 1000 /\ 1 <= seconds w <= 10.
Proof.
  cbv zeta. intros H.
  destruct (fresh_numbers_countdown random n H) as (_ & ->).
  split; [reflexivity|]. Z.div_mod_to_equations. lia.
Qed.

Lemma countdown_closed_form_witness :
  let w := advance half_then_new 13500 (mount half_then_new) in
  seconds w = 10 - (Z.of_N 13500 mod 10000) / 1000 /\ 1 <= seconds w <= 10.
Proof.
  apply (countdown_closed_form half_then_new 13500).
  vm_compute; reflexivity.
Defined.

(** X12: the countdown's callback only ever runs on whole seconds of the
    clock. *)
Theorem ticks_on_whole_seconds (random : nat -> Q) (w : world) :
  reachable random w -> Forall (fun t => t mod 1000 = 0) (ticks w).
Proof.
  intros H.
  destruct (reachable_more random w H) as (_ & _ & Htk & _).
  eapply Forall_impl; [|exact Htk].
  intros t (a & ->). rewrite Z.mul_comm. apply Z.mod_mul. lia.
Qed.

Lemma ticks_on_whole_seconds_witness :
  Forall (fun t => t mod 1000 = 0)
    (ticks (advance half_then_new 12000 (mount half_then_new))).
Proof.
  apply (ticks_on_whole_seconds half_then_new).
  apply reachable_advance, reach_mount.
Defined.

(** ** App *)

(** X10: the display is never stale: in every reachable state the pair
    rendered last is the number and the countdown currently held. *)
Theorem display_in_sync (random : nat -> Q) (w : world) :
  reachable random w -> displayed w = Some (number w, seconds w).
Proof. intros H. apply (reachable_more random w H). Qed.

Lemma display_in_sync_witness :
  let w := advance always_half 10000 (mount always_half) in
  displayed w = Some (number w, seconds w).
Proof.
  apply (display_in_sync always_half).
  apply reachable_advance, reach_mount.
Defined.



(** X13: the countdown rises for one reason only: if a millisecond leaves
    it higher than before, the number changed in that millisecond, and the
    countdown is at 10. *)
Theorem countdown_rises_only_on_new_number (random : nat -> Q) (w : world) :
  reachable random w ->
  seconds w < seconds (advance_ms random w) ->
  number (advance_ms random w) <> number w /\
  seconds (advance_ms random w) = 10.
Proof.
  intros Hr Hlt.
  destruct (reachable_inv random w Hr) as [(dr & dt & Hs & Hdr & Hdt)|Ht].
  - destruct (advance_ms_steady random dr dt w Hs) as (_ & _ & Hnum & Hsec & _);
      try lia.
    cbv zeta in Hnum, Hsec. rewrite Hnum, Hsec in *. clear Hnum Hsec.
    destruct (dr =? now w + 1); cbn [andb negb] in *.
    + destruct (Z.eqb_spec (rand (random (draws w))) (number w)) as [Hv|Hv];
        cbn [andb negb] in *.
      * destruct (dt =? now w + 1); lia.
      * split; [exact Hv | reflexivity].
    + destruct (dt =? now w + 1); lia.
  - rewrite advance_ms_torn_down in Hlt by exact Ht. cbn in Hlt. lia.
Qed.

Lemma countdown_rises_only_on_new_number_witness :
  let w := advance half_then_new 9999 (mount half_then_new) in
  number (advance_ms half_then_new w) <> number w /\
  seconds (advance_ms half_then_new w) = 10.
Proof.
  apply (countdown_rises_only_on_new_number half_then_new).
  - apply reachable_advance, reach_mount.
  - vm_compute; reflexivity.
Defined.
